(** * Interpreter blocks: layout, lifecycle, reference chain, dead blocks

    A shallow embedding of [clang/lib/AST/Interp/InterpBlock.h].

    Addresses are integers ([Z]); [nullptr] is [0].  A C++ object that
    the header declares becomes a record, a heap of such objects a finite
    map from addresses to records, and a member function a function of
    [this], of the object and of the parts of the heap it touches. *)

From Stdlib Require Import ZArith Lia.
From Stdlib.Strings Require Import Byte.
From stdpp Require Import base option numbers list gmap fin_maps.

Local Open Scope Z_scope.

(** ** Memory *)

Abbreviation nullptr := 0%Z (only parsing).

(** [std::memset(p, c, n)] on a byte store. *)
Definition memset (m : gmap Z byte) (p : Z) (c : byte) (n : Z) : gmap Z byte :=
  foldr (λ a acc, <[a := c]> acc) m (seqZ p n).

(** [std::memcpy(dst, src, n)]: every byte is read from the store as it
    was at the call. *)
Definition memcpy (m : gmap Z byte) (dst src n : Z) : gmap Z byte :=
  foldr (λ i acc, match m !! (src + i) with
                  | Some v => <[dst + i := v]> acc
                  | None => delete (dst + i) acc
                  end) m (seqZ 0 n).

(** [unsigned] is 32 bits wide. *)
Definition unsigned_cast (z : Z) : Z := z mod 2 ^ 32.

(** ** Block *)

(** The members of [class Block], in the order of the header.  [Desc] is
    the [Descriptor *]: a handle into the table of descriptors, which
    are declared below. *)
Record Block := mkBlock {
  Pointers : Z;
  DeclID : option Z;
  IsStatic : bool;
  IsExtern : bool;
  IsDead : bool;
  IsInitialized : bool;
  Desc : Z
}.

(** [Block(const std::optional<unsigned> &DeclID, Descriptor *Desc,
          bool IsStatic, bool IsExtern)]; the members without an
    initializer keep their default member initializers. *)
Definition Block_ctor (DeclID : option Z) (Desc : Z)
    (IsStatic IsExtern : bool) : Block :=
  {| Pointers := nullptr; DeclID := DeclID; IsStatic := IsStatic;
     IsExtern := IsExtern; IsDead := false; IsInitialized := false;
     Desc := Desc |}.

(** [Block(Descriptor *Desc, bool IsStatic, bool IsExtern)]. *)
Definition Block_ctor_nodecl (Desc : Z) (IsStatic IsExtern : bool) : Block :=
  {| Pointers := nullptr; DeclID := Some (unsigned_cast (-1));
     IsStatic := IsStatic; IsExtern := IsExtern; IsDead := false;
     IsInitialized := false; Desc := Desc |}.

(** The protected
    [Block(Descriptor *Desc, bool IsExtern, bool IsStatic, bool IsDead)]:
    its initializer list is [IsStatic(IsStatic), IsExtern(IsExtern),
    IsDead(true), Desc(Desc)]. *)
Definition Block_ctor_dead (Desc : Z) (IsExtern IsStatic IsDead : bool)
    : Block :=
  {| Pointers := nullptr; DeclID := None; IsStatic := IsStatic;
     IsExtern := IsExtern; IsDead := true; IsInitialized := false;
     Desc := Desc |}.

Definition set_Pointers (p : Z) (b : Block) : Block :=
  {| Pointers := p; DeclID := DeclID b; IsStatic := IsStatic b;
     IsExtern := IsExtern b; IsDead := IsDead b;
     IsInitialized := IsInitialized b; Desc := Desc b |}.

Definition set_IsInitialized (i : bool) (b : Block) : Block :=
  {| Pointers := Pointers b; DeclID := DeclID b; IsStatic := IsStatic b;
     IsExtern := IsExtern b; IsDead := IsDead b;
     IsInitialized := i; Desc := Desc b |}.

(** [bool hasPointers() const { return Pointers; }]: a pointer converts
    to [true] unless it is null. *)
Definition hasPointers (b : Block) : bool := negb (Pointers b =? nullptr).
Definition isExtern (b : Block) : bool := IsExtern b.
Definition isStatic (b : Block) : bool := IsStatic b.
Definition getDeclID (b : Block) : option Z := DeclID b.
Definition isInitialized (b : Block) : bool := IsInitialized b.

(** ** Descriptor *)

(** [BlockCtorFn] and [BlockDtorFn]: the callbacks receive the block, the
    data pointer, the flags and the descriptor handle, and act on the
    byte store.  A [Block *] argument is the address together with the
    object as it stands at the call: the callee can read the block
    through the pointer, and cannot write its members, which are
    protected (the callbacks are no friends of the class). *)
Definition BlockCtorFn : Type :=
  Z * Block → Z → bool → bool → bool → Z → gmap Z byte → gmap Z byte.
Definition BlockDtorFn : Type :=
  Z * Block → Z → Z → gmap Z byte → gmap Z byte.

(** Modelled from the spec: [Descriptor.h] is not among the sources.  The
    record has what the spec lists for a descriptor: data size,
    metadata-region size, allocation footprint, the flags temporary,
    const and mutable, and the two optional callbacks. *)
Record Descriptor := mkDescriptor {
  Size : Z;
  MDSize : Z;
  AllocSize : Z;
  IsConst : bool;
  IsMutable : bool;
  IsTemporary : bool;
  CtorFn : option BlockCtorFn;
  DtorFn : option BlockDtorFn
}.

Definition getSize (D : Descriptor) : Z := Size D.
Definition getMetadataSize (D : Descriptor) : Z := MDSize D.
Definition getAllocSize (D : Descriptor) : Z := AllocSize D.

(** What the header takes from its environment: [sizeof(Block)],
    [offsetof(DeadBlock, B)], and the descriptors by handle. *)
Class Env := {
  sizeof_Block : Z;
  offsetof_B : Z;
  descriptors : Z → Descriptor
}.

Section BlockMethods.
Context `{Env}.

Definition getDescriptor (b : Block) : Descriptor := descriptors (Desc b).
Definition isTemporary (b : Block) : bool := IsTemporary (getDescriptor b).
Definition Block_getSize (b : Block) : Z := getAllocSize (getDescriptor b).

(** [reinterpret_cast<std::byte *>(this) + sizeof(Block)]. *)
Definition rawData (this : Z) : Z := this + sizeof_Block.

Definition data (this : Z) (b : Block) : Z :=
  let DataOffset := getMetadataSize (getDescriptor b) in
  rawData this + DataOffset.

Definition invokeCtor (this : Z) (b : Block) (m : gmap Z byte)
    : Block * gmap Z byte :=
  let D := getDescriptor b in
  let m1 := memset m (rawData this) x00 (getAllocSize D) in
  let m2 := match CtorFn D with
            | Some f =>
                f (this, b) (data this b) (IsConst D) (IsMutable D) true
                  (Desc b) m1
            | None => m1
            end in
  (set_IsInitialized true b, m2).

Definition invokeDtor (this : Z) (b : Block) (m : gmap Z byte)
    : Block * gmap Z byte :=
  let D := getDescriptor b in
  let m1 := match DtorFn D with
            | Some f => f (this, b) (data this b) (Desc b) m
            | None => m
            end in
  (set_IsInitialized false b, m1).
End BlockMethods.

(** ** Intrusive doubly linked lists

    Both the chain of a block's pointers and the list of dead blocks are
    threaded through the objects themselves.  [Linked] is what a node
    type offers for that: its two links, to read and to write.  The
    header declares the functions that change the lists and does not
    define them; the list operations below are what the spec says of
    them: insert a node at the head, unlink a node by linking its
    neighbours to each other, put a node in the place of another. *)
Class Linked (N : Type) := {
  link_prev : N → Z;
  link_next : N → Z;
  set_prev : Z → N → N;
  set_next : Z → N → N
}.

Class LinkedLaws (N : Type) `{Linked N} := {
  prev_set_prev : ∀ q n, link_prev (set_prev q n) = q;
  next_set_prev : ∀ q n, link_next (set_prev q n) = link_next n;
  prev_set_next : ∀ q n, link_prev (set_next q n) = link_prev n;
  next_set_next : ∀ q n, link_next (set_next q n) = q
}.

Section Intrusive.
Context {N : Type} `{Linked N}.

(** [for (p = hd; p; p = p->Next)]: the nodes met from [hd] on; [fuel]
    bounds the number of nodes visited. *)
Fixpoint walk (h : gmap Z N) (fuel : nat) (p : Z) : list Z :=
  match fuel with
  | O => []
  | S fuel' =>
      if decide (p = nullptr) then []
      else match h !! p with
           | Some n => p :: walk h fuel' (link_next n)
           | None => []
           end
  end.

(** A list without a cycle visits each node of the heap at most once. *)
Definition chain (h : gmap Z N) (hd : Z) : list Z := walk h (size h) hd.

(** [if (a) a->Prev = q;] and [if (a) a->Next = q;]. *)
Definition patch_prev (a q : Z) (h : gmap Z N) : gmap Z N :=
  if decide (a = nullptr) then h else alter (set_prev q) a h.
Definition patch_next (a q : Z) (h : gmap Z N) : gmap Z N :=
  if decide (a = nullptr) then h else alter (set_next q) a h.

(** Node [n], stored at [p], becomes the head of the list that started
    at [hd]. *)
Definition link_head (h : gmap Z N) (hd p : Z) (n : N) : gmap Z N :=
  <[p := set_next hd (set_prev nullptr n)]> (patch_prev hd p h).

(** The neighbours of node [n] are linked to each other. *)
Definition unlink_node (h : gmap Z N) (n : N) : gmap Z N :=
  patch_prev (link_next n) (link_prev n)
    (patch_next (link_prev n) (link_next n) h).

Definition head_after_unlink (hd p : Z) (n : N) : Z :=
  if decide (hd = p) then link_next n else hd.

(** Node [n], stored at [new], takes the links of node [o] and the
    neighbours of [o] are linked to it. *)
Definition substitute_node (h : gmap Z N) (o : N) (new : Z) (n : N)
    : gmap Z N :=
  patch_prev (link_next o) new
    (patch_next (link_prev o) new
       (<[new := set_next (link_next o) (set_prev (link_prev o) n)]> h)).

Definition head_after_substitute (hd old new : Z) : Z :=
  if decide (hd = old) then new else hd.

(** The two links of the node at [a], if there is one. *)
Definition links (h : gmap Z N) (a : Z) : option (Z * Z) :=
  (λ n, (link_prev n, link_next n)) <$> h !! a.

(** The list [l] is laid out in [h] from [hd] on, the node before [hd]
    being [pv]. *)
Fixpoint dll (h : gmap Z N) (pv hd : Z) (l : list Z) : Prop :=
  match l with
  | [] => hd = nullptr
  | a :: l' =>
      hd = a ∧ a ≠ nullptr ∧
      match h !! a with
      | Some n => link_prev n = pv ∧ dll h a (link_next n) l'
      | None => False
      end
  end.

#[export] Instance dll_dec h pv hd l : Decision (dll h pv hd l).
Proof.
  revert pv hd. induction l as [|a l IH]; intros pv hd; simpl.
  - apply _.
  - destruct (h !! a); apply _.
Defined.
End Intrusive.

(** ** Pointer *)

(** Modelled from the spec: [class Pointer] is only declared in the
    header.  A reference node holds a back-reference to the block it
    targets and is an element of that block's intrusive chain. *)
Record Pointer := mkPointer {
  Pointee : Z;
  PtrPrev : Z;
  PtrNext : Z
}.

Definition set_Pointee (t : Z) (p : Pointer) : Pointer :=
  {| Pointee := t; PtrPrev := PtrPrev p; PtrNext := PtrNext p |}.

#[export] Instance Pointer_Linked : Linked Pointer := {|
  link_prev := PtrPrev;
  link_next := PtrNext;
  set_prev q p := {| Pointee := Pointee p; PtrPrev := q; PtrNext := PtrNext p |};
  set_next q p := {| Pointee := Pointee p; PtrPrev := PtrPrev p; PtrNext := q |}
|}.

(** ** Pointer chain management *)

(** Modelled from the spec: [Block::addPointer] is declared in the header
    and defined elsewhere.  attach(ref): insert a reference node in the
    intrusive chain. *)
Definition addPointer (P : Z) (b : Block) (ps : gmap Z Pointer)
    : Block * gmap Z Pointer :=
  match ps !! P with
  | Some n => (set_Pointers P b, link_head ps (Pointers b) P n)
  | None => (b, ps)
  end.

(** Modelled from the spec: [Block::removePointer] is declared in the
    header and defined elsewhere.  detach(ref): remove a reference node
    from the intrusive chain. *)
Definition removePointer (P : Z) (b : Block) (ps : gmap Z Pointer)
    : Block * gmap Z Pointer :=
  match ps !! P with
  | Some n =>
      (set_Pointers (head_after_unlink (Pointers b) P n) b, unlink_node ps n)
  | None => (b, ps)
  end.

(** Modelled from the spec: [Block::replacePointer] is declared in the
    header and defined elsewhere.  retarget(old, new): substitute a
    reference node in the intrusive chain; [new] occupies the position
    [old] held. *)
Definition replacePointer (Old New : Z) (b : Block) (ps : gmap Z Pointer)
    : Block * gmap Z Pointer :=
  match ps !! Old, ps !! New with
  | Some o, Some n =>
      (set_Pointers (head_after_substitute (Pointers b) Old New) b,
       substitute_node ps o New n)
  | _, _ => (b, ps)
  end.

(** Modelled from the spec: [Block::hasPointer] is declared in the header
    and defined elsewhere.  The debug-only membership query. *)
Definition hasPointer (P : Z) (b : Block) (ps : gmap Z Pointer) : bool :=
  bool_decide (P ∈ chain ps (Pointers b)).

(** The calls that mutate a chain, and a run of them. *)
Inductive ChainOp :=
  | Attach (P : Z)
  | Detach (P : Z)
  | Retarget (Old New : Z).

Definition chain_step (op : ChainOp) (s : Block * gmap Z Pointer)
    : Block * gmap Z Pointer :=
  match op with
  | Attach P => addPointer P s.1 s.2
  | Detach P => removePointer P s.1 s.2
  | Retarget Old New => replacePointer Old New s.1 s.2
  end.

(** The states after each call of the run, in order. *)
Fixpoint chain_run (ops : list ChainOp) (s : Block * gmap Z Pointer)
    : list (Block * gmap Z Pointer) :=
  match ops with
  | [] => []
  | op :: ops' => let s' := chain_step op s in s' :: chain_run ops' s'
  end.

(** What a call requires of its arguments: a node to attach exists, is
    not null and is not attached; a node to detach is attached; a
    retarget has an attached node and one to attach. *)
Definition chain_op_ok (op : ChainOp) (s : Block * gmap Z Pointer) : Prop :=
  let l := chain s.2 (Pointers s.1) in
  match op with
  | Attach P => P ≠ nullptr ∧ is_Some (s.2 !! P) ∧ P ∉ l
  | Detach P => P ∈ l
  | Retarget Old New =>
      Old ∈ l ∧ New ≠ nullptr ∧ is_Some (s.2 !! New) ∧ New ∉ l
  end.

Fixpoint chain_run_ok (ops : list ChainOp) (s : Block * gmap Z Pointer)
    : Prop :=
  match ops with
  | [] => True
  | op :: ops' => chain_op_ok op s ∧ chain_run_ok ops' (chain_step op s)
  end.

(** The chain of a block is well formed in a heap of pointers: the
    traversal from [Pointers] ends, and the back links agree with the
    forward links. *)
Definition chain_wf (s : Block * gmap Z Pointer) : Prop :=
  dll s.2 nullptr (Pointers s.1) (chain s.2 (Pointers s.1)).

#[export] Instance chain_wf_dec s : Decision (chain_wf s).
Proof. unfold chain_wf. apply _. Defined.

#[export] Instance chain_op_ok_dec op s : Decision (chain_op_ok op s).
Proof. destruct op; simpl; apply _. Defined.

#[export] Instance chain_run_ok_dec ops s : Decision (chain_run_ok ops s).
Proof. revert s. induction ops; simpl; intros; apply _. Defined.

(** The same calls on the sequence of attached nodes. *)
Definition substitute (old new : Z) (l : list Z) : list Z :=
  (λ x, if decide (x = old) then new else x) <$> l.

Definition without (p : Z) (l : list Z) : list Z :=
  filter (λ x, x ≠ p) l.

(** ** DeadBlock *)

(** The members of [class DeadBlock].  [Root] is the [DeadBlock *&]: the
    address of the variable that holds the head of the list. *)
Record DeadBlock := mkDeadBlock {
  Root : Z;
  Prev : Z;
  Next : Z;
  B : Block
}.

#[export] Instance DeadBlock_Linked : Linked DeadBlock := {|
  link_prev := Prev;
  link_next := Next;
  set_prev q d := {| Root := Root d; Prev := q; Next := Next d; B := B d |};
  set_next q d := {| Root := Root d; Prev := Prev d; Next := q; B := B d |}
|}.

(** The objects of the interpreter: the live blocks, the dead blocks and
    the pointers by address, the variables that hold the root of a list
    of dead blocks, and the bytes behind the block headers. *)
Record Heap := mkHeap {
  blocks : gmap Z Block;
  deadblocks : gmap Z DeadBlock;
  pointers : gmap Z Pointer;
  roots : gmap Z Z;
  bytes : gmap Z byte
}.

(** Modelled from the spec: the retargeting that [DeadBlock::DeadBlock]
    (defined elsewhere) does, [P->Pointee = target] for each [P] of
    [l]. *)
Definition retarget (ps : gmap Z Pointer) (l : list Z) (target : Z)
    : gmap Z Pointer :=
  foldr (λ P acc, alter (set_Pointee target) P acc) ps l.

(** Modelled from the spec: the reclaiming that [DeadBlock::free]
    (defined elsewhere) does; the bytes of the storage are no longer
    there. *)
Definition reclaim (m : gmap Z byte) (p n : Z) : gmap Z byte :=
  foldr (λ a acc, delete a acc) m (seqZ p n).

Section DeadBlocks.
Context `{Env}.

(** The block object at an address: a live block, or the block embedded
    in a dead block. *)
Definition block_at (st : Heap) (a : Z) : option Block :=
  match blocks st !! a with
  | Some b => Some b
  | None => B <$> deadblocks st !! (a - offsetof_B)
  end.

(** Byte [i] of what pointer [P] sees through [data()] of its pointee. *)
Definition data_view (st : Heap) (P : Z) (i : Z) : option byte :=
  n ← pointers st !! P;
  b ← block_at st (Pointee n);
  bytes st !! (data (Pointee n) b + i).

(** Modelled from the spec: the header that [DeadBlock::DeadBlock]
    (defined elsewhere) gives the embedded block.  It is made by the
    dead-on-creation constructor from the descriptor and the
    storage-class flags of the source, and the other members are
    copied from the source. *)
Definition dead_copy (b : Block) : Block :=
  let nb := Block_ctor_dead (Desc b) (IsExtern b) (IsStatic b) true in
  {| Pointers := Pointers b; DeclID := DeclID b; IsStatic := IsStatic nb;
     IsExtern := IsExtern nb; IsDead := IsDead nb;
     IsInitialized := IsInitialized b; Desc := Desc nb |}.

(** Modelled from the spec: [DeadBlock::DeadBlock(DeadBlock *&Root,
    Block *Blk)] is declared in the header and defined elsewhere.
    Given the address of the root and a live block, it copies the
    header, the metadata and the data of the block into the new
    storage at [this], links the new node at the head of the list and
    updates the root, and retargets every pointer of the block's chain
    to the embedded block. *)
Definition DeadBlock_ctor (this Root Blk : Z) (st : Heap) : Heap :=
  match blocks st !! Blk, roots st !! Root with
  | Some b, Some r =>
      let addrB := this + offsetof_B in
      {| blocks := blocks st;
         deadblocks :=
           link_head (deadblocks st) r this
             (mkDeadBlock Root nullptr nullptr (dead_copy b));
         pointers :=
           retarget (pointers st) (chain (pointers st) (Pointers b)) addrB;
         roots := <[Root := this]> (roots st);
         bytes :=
           memcpy (bytes st) (rawData addrB) (rawData Blk)
             (Block_getSize b) |}
  | _, _ => st
  end.

(** [DeadBlock::data() { return B.data(); }] and
    [DeadBlock::rawData() { return B.rawData(); }]. *)
Definition DeadBlock_data (this : Z) (d : DeadBlock) : Z :=
  data (this + offsetof_B) (B d).
Definition DeadBlock_rawData (this : Z) : Z :=
  rawData (this + offsetof_B).

(** Modelled from the spec: [DeadBlock::free] is declared in the header
    and defined elsewhere.  release(): unlinks the node from the list,
    patching the links of its neighbours, or the root if it was the
    head, and reclaims its storage. *)
Definition free (this : Z) (st : Heap) : Heap :=
  match deadblocks st !! this with
  | Some d =>
      {| blocks := blocks st;
         deadblocks := delete this (unlink_node (deadblocks st) d);
         pointers := pointers st;
         roots :=
           match roots st !! Root d with
           | Some r =>
               if decide (r = this) then <[Root d := Next d]> (roots st)
               else roots st
           | None => roots st
           end;
         bytes :=
           reclaim (bytes st) (DeadBlock_rawData this)
             (Block_getSize (B d)) |}
  | None => st
  end.

(** The dead blocks listed under a root variable. *)
Definition dead_list (st : Heap) (Root : Z) : list Z :=
  match roots st !! Root with
  | Some r => chain (deadblocks st) r
  | None => []
  end.

(** The list under a root variable is well formed. *)
Definition dead_list_wf (st : Heap) (Root : Z) : Prop :=
  match roots st !! Root with
  | Some r => dll (deadblocks st) nullptr r (chain (deadblocks st) r)
  | None => False
  end.

#[export] Instance dead_list_wf_dec st Root :
  Decision (dead_list_wf st Root).
Proof. unfold dead_list_wf. destruct (roots st !! Root); apply _. Defined.
End DeadBlocks.

(** ** Lifecycle *)

(** The calls on one block object that the header offers, besides the
    chain management. *)
Inductive BlockOp :=
  | InvokeCtor
  | InvokeDtor
  | Chain (op : ChainOp).

(** A block object with the pointers and the bytes it works on. *)
Record BlockState := mkBlockState {
  bs_block : Block;
  bs_pointers : gmap Z Pointer;
  bs_bytes : gmap Z byte
}.

Section Lifecycle.
Context `{Env}.

Definition block_step (this : Z) (op : BlockOp) (s : BlockState)
    : BlockState :=
  match op with
  | InvokeCtor =>
      let r := invokeCtor this (bs_block s) (bs_bytes s) in
      mkBlockState r.1 (bs_pointers s) r.2
  | InvokeDtor =>
      let r := invokeDtor this (bs_block s) (bs_bytes s) in
      mkBlockState r.1 (bs_pointers s) r.2
  | Chain op =>
      let r := chain_step op (bs_block s, bs_pointers s) in
      mkBlockState r.1 r.2 (bs_bytes s)
  end.

Definition block_run (this : Z) (ops : list BlockOp) (s : BlockState)
    : BlockState :=
  foldl (λ s op, block_step this op s) s ops.
End Lifecycle.

(** The last lifecycle call of a run, if there is one: [true] for a
    construct, [false] for a destroy. *)
Fixpoint last_lifecycle (ops : list BlockOp) (init : bool) : bool :=
  match ops with
  | [] => init
  | InvokeCtor :: ops' => last_lifecycle ops' true
  | InvokeDtor :: ops' => last_lifecycle ops' false
  | Chain _ :: ops' => last_lifecycle ops' init
  end.

(** ** A concrete configuration

    The descriptor of the scenario with a metadata region of 8 bytes and
    24 bytes of data, on a target where the block header takes 32 bytes;
    a block with three attached pointers and a fourth pointer that is
    not attached; a heap with that block, and the heap after three
    relocations. *)
Definition ex_desc : Descriptor :=
  mkDescriptor 24 8 32 false false false None None.

Definition ex_env : Env :=
  {| sizeof_Block := 32; offsetof_B := 24; descriptors := λ _, ex_desc |}.

(** Callbacks that leave a mark in the first data byte: whether the
    block read as initialized when the callback ran. *)
Definition ex_mark (blk : Z * Block) (p : Z) (m : gmap Z byte)
    : gmap Z byte :=
  <[p := if isInitialized blk.2 then x01 else xff]> m.

Definition ex_desc_marking : Descriptor :=
  mkDescriptor 24 8 32 false false false
    (Some (λ blk p _ _ _ _ m, ex_mark blk p m))
    (Some (λ blk p _ m, ex_mark blk p m)).

Definition ex_env_marking : Env :=
  {| sizeof_Block := 32; offsetof_B := 24;
     descriptors := λ _, ex_desc_marking |}.

Definition ex_pointers : gmap Z Pointer :=
  {[ 10 := mkPointer 100 0 20; 20 := mkPointer 100 10 30;
     30 := mkPointer 100 20 0; 40 := mkPointer 0 0 0 ]}.

Definition ex_block : Block :=
  set_Pointers 10 (Block_ctor (Some 3) 7 false false).

Definition ex_bytes : gmap Z byte :=
  {[ 132 := x01; 140 := xaa; 141 := xbb ]}.

Definition ex_heap : Heap :=
  mkHeap {[ 100 := ex_block ]} ∅ ex_pointers {[ 500 := nullptr ]} ex_bytes.

Definition ex_heap3 : Heap :=
  @DeadBlock_ctor ex_env 3000 500 100
    (@DeadBlock_ctor ex_env 2000 500 100
       (@DeadBlock_ctor ex_env 1000 500 100 ex_heap)).

(** The node linked second, as it stands in [ex_heap3]. *)
Definition ex_dead2 : DeadBlock :=
  mkDeadBlock 500 3000 1000 (dead_copy ex_block).

(** ** A block that outlives its storage

    A block with 16 bytes of data and no metadata is constructed at
    address 100 and filled with [0xAA]; two pointers are attached and
    one is detached; the block is relocated to a dead block at 1000; the
    last pointer is detached and the dead block released. *)
Definition sc_desc : Descriptor :=
  mkDescriptor 16 0 16 false false false None None.

Definition sc_env : Env :=
  {| sizeof_Block := 32; offsetof_B := 24; descriptors := λ _, sc_desc |}.

Definition sc_constructed : Block * gmap Z byte :=
  @invokeCtor sc_env 100 (Block_ctor (Some 1) 7 false false) ∅.

Definition sc_written : gmap Z byte :=
  memset sc_constructed.2 (@data sc_env 100 sc_constructed.1) xaa 16.

Definition sc_attached : Block * gmap Z Pointer :=
  let ps : gmap Z Pointer :=
    {[ 10 := mkPointer 100 0 0; 20 := mkPointer 100 0 0 ]} in
  let s1 := addPointer 10 sc_constructed.1 ps in
  let s2 := addPointer 20 s1.1 s1.2 in
  removePointer 10 s2.1 s2.2.

Definition sc_heap : Heap :=
  mkHeap {[ 100 := sc_attached.1 ]} ∅ sc_attached.2 {[ 500 := nullptr ]}
    sc_written.

Definition sc_relocated : Heap := @DeadBlock_ctor sc_env 1000 500 100 sc_heap.

Definition sc_detached : option (Block * gmap Z Pointer) :=
  d ← deadblocks sc_relocated !! 1000;
  Some (removePointer 20 (B d) (pointers sc_relocated)).

Definition sc_released : Heap := @free sc_env 1000 sc_relocated.

(** ** Runs of lifecycle calls

    The two public calls of the lifecycle, [invokeCtor] and
    [invokeDtor], on one block and its bytes, in any order: neither
    function tests the initialized flag before it acts. *)
Inductive LifecycleCall :=
  | Construct
  | Destroy.

#[export] Instance LifecycleCall_eq_dec : EqDecision LifecycleCall.
Proof. solve_decision. Defined.

Section LifecycleRuns.
Context `{Env}.

Definition lifecycle_step (this : Z) (c : LifecycleCall)
    (s : Block * gmap Z byte) : Block * gmap Z byte :=
  match c with
  | Construct => invokeCtor this s.1 s.2
  | Destroy => invokeDtor this s.1 s.2
  end.

Definition lifecycle_run (this : Z) (cs : list LifecycleCall)
    (s : Block * gmap Z byte) : Block * gmap Z byte :=
  foldl (λ s c, lifecycle_step this c s) s cs.
End LifecycleRuns.

(** * Properties *)

(** ** Memory *)

Lemma lookup_memset (m : gmap Z byte) (p : Z) (c : byte) (n a : Z) :
  memset m p c n !! a =
    if decide (p ≤ a < p + n) then Some c else m !! a.
Proof.
  unfold memset.
  assert (Hl : ∀ l : list Z,
    foldr (λ a acc, <[a := c]> acc) m l !! a =
      if decide (a ∈ l) then Some c else m !! a).
  { induction l as [|x l IH]; simpl.
    - done.
    - destruct (decide (x = a)) as [->|Hne].
      + rewrite lookup_insert_eq. rewrite decide_True; [done | left].
      + rewrite lookup_insert_ne by done. rewrite IH.
        destruct (decide (a ∈ l)) as [Hi|Hi].
        * rewrite decide_True by (by right). done.
        * rewrite decide_False; [done|]. apply not_elem_of_cons. split; congruence. }
  rewrite Hl. apply decide_ext, elem_of_seqZ.
Qed.

Lemma lookup_memcpy (m : gmap Z byte) (dst src n a : Z) :
  memcpy m dst src n !! a =
    if decide (dst ≤ a < dst + n) then m !! (src + (a - dst)) else m !! a.
Proof.
  unfold memcpy.
  assert (Hl : ∀ l : list Z,
    foldr (λ i acc, match m !! (src + i) with
                    | Some v => <[dst + i := v]> acc
                    | None => delete (dst + i) acc
                    end) m l !! a =
      if decide (a - dst ∈ l) then m !! (src + (a - dst)) else m !! a).
  { induction l as [|x l IH]; simpl.
    - done.
    - destruct (decide (x = a - dst)) as [->|Hne].
      + replace (dst + (a - dst)) with a by lia.
        rewrite decide_True by left.
        destruct (m !! (src + (a - dst))) as [v|].
        * by rewrite lookup_insert_eq.
        * by rewrite lookup_delete_eq.
      + assert (dst + x ≠ a) by lia.
        assert (Hstep : ∀ acc : gmap Z byte,
          match m !! (src + x) with
          | Some v => <[dst + x := v]> acc
          | None => delete (dst + x) acc
          end !! a = acc !! a).
        { intros acc. destruct (m !! (src + x)).
          - by rewrite lookup_insert_ne.
          - by rewrite lookup_delete_ne. }
        rewrite Hstep, IH.
        destruct (decide (a - dst ∈ l)) as [Hi|Hi].
        * rewrite decide_True by (by right). done.
        * rewrite decide_False; [done|]. apply not_elem_of_cons. split; congruence. }
  rewrite Hl. apply decide_ext. rewrite elem_of_seqZ. lia.
Qed.

Lemma lookup_reclaim (m : gmap Z byte) (p n a : Z) :
  reclaim m p n !! a = if decide (p ≤ a < p + n) then None else m !! a.
Proof.
  unfold reclaim.
  assert (Hl : ∀ l : list Z,
    foldr (λ a acc, delete a acc) m l !! a =
      if decide (a ∈ l) then None else m !! a).
  { induction l as [|x l IH]; simpl.
    - done.
    - destruct (decide (x = a)) as [->|Hne].
      + rewrite lookup_delete_eq. rewrite decide_True; [done | left].
      + rewrite lookup_delete_ne by done. rewrite IH.
        destruct (decide (a ∈ l)) as [Hi|Hi].
        * rewrite decide_True by (by right). done.
        * rewrite decide_False; [done|]. apply not_elem_of_cons. split; congruence. }
  rewrite Hl. apply decide_ext, elem_of_seqZ.
Qed.

(** ** Intrusive lists *)

Section IntrusiveFacts.
Context {N : Type} `{LinkedLaws N}.
Implicit Types (h : gmap Z N) (l : list Z) (a p q pv hd : Z).

Lemma links_lookup h a n :
  h !! a = Some n → links h a = Some (link_prev n, link_next n).
Proof. intros Hn. unfold links. by rewrite Hn. Qed.

Lemma links_insert h p n a :
  links (<[p := n]> h) a =
    if decide (p = a) then Some (link_prev n, link_next n) else links h a.
Proof.
  unfold links. case_decide as Hd.
  - subst. by rewrite lookup_insert_eq.
  - by rewrite lookup_insert_ne.
Qed.

Lemma links_delete_ne h p a : p ≠ a → links (delete p h) a = links h a.
Proof. intros. unfold links. by rewrite lookup_delete_ne. Qed.

Lemma links_patch_prev h p q a :
  links (patch_prev p q h) a =
    if decide (p ≠ nullptr ∧ p = a) then (λ x, (q, x.2)) <$> links h a
    else links h a.
Proof.
  unfold patch_prev, links. destruct (decide (p = 0)) as [Hz|Hz].
  - rewrite decide_False; [done | tauto].
  - destruct (decide (p = a)) as [->|Hne].
    + rewrite decide_True by done. rewrite lookup_alter_eq.
      destruct (h !! a) as [n|]; simpl; [|done].
      by rewrite prev_set_prev, next_set_prev.
    + rewrite decide_False by tauto. by rewrite lookup_alter_ne.
Qed.

Lemma links_patch_next h p q a :
  links (patch_next p q h) a =
    if decide (p ≠ nullptr ∧ p = a) then (λ x, (x.1, q)) <$> links h a
    else links h a.
Proof.
  unfold patch_next, links. destruct (decide (p = 0)) as [Hz|Hz].
  - rewrite decide_False; [done | tauto].
  - destruct (decide (p = a)) as [->|Hne].
    + rewrite decide_True by done. rewrite lookup_alter_eq.
      destruct (h !! a) as [n|]; simpl; [|done].
      by rewrite prev_set_next, next_set_next.
    + rewrite decide_False by tauto. by rewrite lookup_alter_ne.
Qed.

Lemma dll_cons h pv hd a l :
  dll h pv hd (a :: l) ↔
    hd = a ∧ a ≠ nullptr ∧ ∃ nx, links h a = Some (pv, nx) ∧ dll h a nx l.
Proof.
  simpl. unfold links. split.
  - intros (-> & Ha & Hn). destruct (h !! a) as [n|]; [|done].
    destruct Hn as [Hp Hl]. repeat split; try done.
    exists (link_next n). simpl. by rewrite Hp.
  - intros (-> & Ha & nx & Hlk & Hl). repeat split; try done.
    destruct (h !! a) as [n|]; [|done].
    simpl in Hlk. injection Hlk as Hp Hx. by subst.
Qed.

(** Only the links of the listed nodes matter. *)
Lemma dll_ext h h' pv hd l :
  (∀ a, a ∈ l → links h' a = links h a) →
  dll h pv hd l → dll h' pv hd l.
Proof.
  revert pv hd. induction l as [|a l IH]; intros pv hd Hext; [done|].
  rewrite !dll_cons. intros (-> & Ha & nx & Hlk & Hl).
  repeat split; try done. exists nx. split.
  - rewrite Hext; [done | left].
  - apply IH; [|done]. intros b Hb. apply Hext. by right.
Qed.

Lemma dll_lookup h pv hd l a :
  dll h pv hd l → a ∈ l →
  a ≠ nullptr ∧
  ∃ pp pn, links h a = Some (pp, pn) ∧
    (pp = pv ∨ pp ∈ l) ∧ (pn = nullptr ∨ pn ∈ l).
Proof.
  revert pv hd. induction l as [|b l IH]; intros pv hd Hd Ha.
  { by apply elem_of_nil in Ha. }
  apply dll_cons in Hd as (-> & Hb & nx & Hlk & Hl).
  apply elem_of_cons in Ha as [->|Ha].
  - split; [done|]. exists pv, nx. repeat split; [done | by left |].
    destruct l as [|c l]; [by left|].
    apply dll_cons in Hl as (-> & _). right. right. left.
  - destruct (IH _ _ Hl Ha) as (Hnz & pp & pn & Hlk' & Hpp & Hpn).
    split; [done|]. exists pp, pn. repeat split; [done | |].
    + right. destruct Hpp as [->|Hpp]; [left | by right].
    + destruct Hpn as [->|Hpn]; [by left | right; by right].
Qed.

Lemma dll_nonnull h pv hd l : dll h pv hd l → nullptr ∉ l.
Proof. intros Hd Hin. by destruct (dll_lookup _ _ _ _ _ Hd Hin). Qed.

Lemma dll_NoDup h pv hd l : dll h pv hd l → pv ∉ l → NoDup l.
Proof.
  revert pv hd. induction l as [|a l IH]; intros pv hd Hd Hpv.
  { constructor. }
  apply dll_cons in Hd as (-> & Ha & nx & Hlk & Hl).
  assert (Hal : a ∉ l).
  { intros Hin.
    destruct (dll_lookup _ _ _ _ _ Hl Hin) as (_ & pp & pn & Hlk' & Hpp & _).
    rewrite Hlk in Hlk'. injection Hlk' as <- <-.
    apply Hpv. destruct Hpp as [->|Hpp]; [left | by right]. }
  constructor; [done|]. by apply (IH a nx).
Qed.

Lemma walk_dll h pv hd l fuel :
  dll h pv hd l → (length l ≤ fuel)%nat → walk h fuel hd = l.
Proof.
  revert pv hd fuel. induction l as [|a l IH]; intros pv hd fuel Hd Hlen.
  - simpl in Hd. subst hd. by destruct fuel.
  - simpl in Hd. destruct Hd as (-> & Ha & Hn).
    destruct fuel as [|fuel]; simpl in Hlen; [lia|].
    simpl. rewrite decide_False by done.
    destruct (h !! a) as [n|]; [|done]. destruct Hn as [Hp Hl].
    f_equal. apply (IH a); [done | lia].
Qed.

Lemma dll_length h pv hd l :
  dll h pv hd l → pv ∉ l → (length l ≤ size h)%nat.
Proof.
  intros Hd Hpv.
  assert (Hnd := dll_NoDup _ _ _ _ Hd Hpv).
  rewrite <-(size_dom (D := gset Z)). unfold size, set_size. simpl.
  apply submseteq_length, NoDup_submseteq; [done|].
  intros a Ha. apply elem_of_elements, elem_of_dom.
  destruct (dll_lookup _ _ _ _ _ Hd Ha) as (_ & pp & pn & Hlk & _).
  unfold links in Hlk. destruct (h !! a); [by eexists | done].
Qed.

(** A well-formed list is what the traversal from its head yields. *)
Lemma chain_dll h hd l : dll h nullptr hd l → chain h hd = l.
Proof.
  intros Hd. unfold chain. apply (walk_dll _ nullptr); [done|].
  apply (dll_length _ nullptr hd); [done|].
  exact (dll_nonnull _ _ _ _ Hd).
Qed.

Lemma dll_patch_prev_head h pv hd l q :
  dll h pv hd l → pv ∉ l → dll (patch_prev hd q h) q hd l.
Proof.
  intros Hd Hpv. assert (Hnd := dll_NoDup _ _ _ _ Hd Hpv).
  destruct l as [|a l]; [done|].
  apply dll_cons in Hd as (-> & Ha & nx & Hlk & Hl).
  apply NoDup_cons in Hnd as [Hal _].
  apply dll_cons. repeat split; try done. exists nx. split.
  - rewrite links_patch_prev, decide_True by done. by rewrite Hlk.
  - apply (dll_ext h); [|done]. intros b Hb.
    rewrite links_patch_prev, decide_False; [done|].
    intros [_ ->]. done.
Qed.

Lemma dll_pred_head h a nx l p pp pn :
  dll h a nx l → a ∉ l → p ∈ l → links h p = Some (pp, pn) →
  (pp = a ↔ nx = p).
Proof.
  intros Hd Ha Hp Hlk. assert (Hnd := dll_NoDup _ _ _ _ Hd Ha).
  destruct l as [|c l]; [by apply elem_of_nil in Hp|].
  apply dll_cons in Hd as (-> & Hc & nx2 & Hlkc & Hl).
  apply NoDup_cons in Hnd as [Hcl _].
  apply elem_of_cons in Hp as [->|Hp].
  - rewrite Hlk in Hlkc. injection Hlkc as -> ->. done.
  - destruct (dll_lookup _ _ _ _ _ Hl Hp) as (_ & pp' & pn' & Hlk' & Hpp & _).
    rewrite Hlk in Hlk'. injection Hlk' as <- <-.
    split.
    + intros ->. exfalso. apply Ha.
      destruct Hpp as [->|Hpp]; [left | by right].
    + intros ->. done.
Qed.

Lemma dll_succ_other h pv hd l p pp pn a :
  dll h pv hd l → p ∈ l → links h p = Some (pp, pn) →
  a ≠ nullptr → a ∉ l → pn ≠ a.
Proof.
  intros Hd Hp Hlk Ha Hal ->.
  destruct (dll_lookup _ _ _ _ _ Hd Hp) as (_ & pp' & pn' & Hlk' & _ & Hpn).
  rewrite Hlk in Hlk'. injection Hlk' as <- <-.
  by destruct Hpn.
Qed.
End IntrusiveFacts.

Lemma without_notin (p : Z) (l : list Z) : p ∉ l → without p l = l.
Proof.
  intros Hp. unfold without. induction l as [|a l IH]; [done|].
  apply not_elem_of_cons in Hp as [Hne Hp].
  rewrite filter_cons_True by done. f_equal. by apply IH.
Qed.

Lemma without_app (p : Z) (l1 l2 : list Z) :
  NoDup (l1 ++ p :: l2) → without p (l1 ++ p :: l2) = l1 ++ l2.
Proof.
  intros Hnd. unfold without. rewrite filter_app, filter_cons_False by tauto.
  apply NoDup_app in Hnd as (_ & H1 & H2). apply NoDup_cons in H2 as [H2 _].
  f_equal.
  - apply without_notin. intros Hin. apply (H1 p Hin). left.
  - by apply without_notin.
Qed.

Lemma substitute_notin (old new : Z) (l : list Z) :
  old ∉ l → substitute old new l = l.
Proof.
  intros Ho. unfold substitute. induction l as [|a l IH]; [done|].
  apply not_elem_of_cons in Ho as [Hne Ho]. simpl.
  rewrite decide_False by done. f_equal. by apply IH.
Qed.

Lemma substitute_cons_eq (old new : Z) (l : list Z) :
  substitute old new (old :: l) = new :: substitute old new l.
Proof. unfold substitute. simpl. by rewrite decide_True. Qed.

Lemma substitute_cons_ne (old new a : Z) (l : list Z) :
  a ≠ old → substitute old new (a :: l) = a :: substitute old new l.
Proof. intros. unfold substitute. simpl. by rewrite decide_False. Qed.

Lemma substitute_length (old new : Z) (l : list Z) :
  length (substitute old new l) = length l.
Proof. unfold substitute. apply length_fmap. Qed.

Lemma substitute_lookup (old new : Z) (l : list Z) (i : nat) :
  substitute old new l !! i =
    (λ x, if decide (x = old) then new else x) <$> l !! i.
Proof. unfold substitute. apply list_lookup_fmap. Qed.

Lemma substitute_new (old new : Z) (l : list Z) :
  old ∈ l → new ∈ substitute old new l.
Proof.
  intros Hin. unfold substitute. apply list_elem_of_fmap.
  exists old. by rewrite decide_True.
Qed.

Lemma substitute_gone (old new : Z) (l : list Z) :
  new ≠ old → old ∉ substitute old new l.
Proof.
  intros Hne. unfold substitute. intros Hin.
  apply list_elem_of_fmap in Hin as (x & Hx & _).
  case_decide; congruence.
Qed.

Section IntrusiveOps.
Context {N : Type} `{LinkedLaws N}.
Implicit Types (h : gmap Z N) (l : list Z) (a p q pv hd : Z).

Lemma links_link_head h hd p n :
  links (link_head h hd p n) p = Some (nullptr, hd).
Proof.
  unfold link_head. rewrite links_insert, decide_True by done.
  by rewrite prev_set_next, prev_set_prev, next_set_next.
Qed.

(** Linking a node in front of a list yields the list with the node in
    front. *)
Lemma link_head_dll h hd l p n :
  dll h nullptr hd l → p ≠ nullptr → p ∉ l →
  dll (link_head h hd p n) nullptr p (p :: l).
Proof.
  intros Hd Hp Hpl. apply dll_cons. repeat split; try done.
  exists hd. split; [apply links_link_head|].
  apply (dll_ext (patch_prev hd p h)).
  - intros a Ha. unfold link_head. rewrite links_insert, decide_False; [done|].
    intros ->. done.
  - apply (dll_patch_prev_head _ nullptr); [done|].
    exact (dll_nonnull _ _ _ _ Hd).
Qed.

Lemma links_unlink_node h n a :
  links (unlink_node h n) a =
    let x := links h a in
    let x1 := if decide (link_prev n ≠ nullptr ∧ link_prev n = a)
              then (λ x, (x.1, link_next n)) <$> x else x in
    if decide (link_next n ≠ nullptr ∧ link_next n = a)
    then (λ x, (link_prev n, x.2)) <$> x1 else x1.
Proof. unfold unlink_node. by rewrite links_patch_prev, links_patch_next. Qed.

(** Unlinking a node of a list yields the list without the node. *)
Lemma unlink_dll h pv hd l p n :
  dll h pv hd l → pv ∉ l → h !! p = Some n → p ∈ l →
  dll (unlink_node h n) pv (head_after_unlink hd p n) (without p l).
Proof.
  intros Hd Hpv Hn Hp. apply links_lookup in Hn.
  revert pv hd Hd Hpv. induction l as [|a l IH]; intros pv hd Hd Hpv.
  { by apply elem_of_nil in Hp. }
  assert (Hnd := dll_NoDup _ _ _ _ Hd Hpv).
  apply NoDup_cons in Hnd as [Hal Hnd].
  apply not_elem_of_cons in Hpv as [Hpva Hpvl].
  apply dll_cons in Hd as (-> & Ha & nx & Hlk & Hl).
  unfold head_after_unlink, without.
  destruct (decide (a = p)) as [->|Hne].
  - (* the head is unlinked *)
    rewrite Hn in Hlk. injection Hlk as Hpp Hpn.
    rewrite filter_cons_False by tauto. fold (without p l).
    rewrite without_notin by done.
    unfold unlink_node. rewrite Hpp, Hpn. apply (dll_patch_prev_head _ p); [|done].
    apply (dll_ext h); [|done]. intros b Hb.
    rewrite links_patch_next, decide_False; [done|].
    intros [_ ->]. done.
  - apply elem_of_cons in Hp as [->|Hp]; [done|].
    rewrite filter_cons_True by done. fold (without p l).
    assert (Hsucc : link_next n ≠ a)
      by (by eapply (dll_succ_other h a nx l p)).
    assert (Hpred := dll_pred_head h a nx l p _ _ Hl Hal Hp Hn).
    apply dll_cons. repeat split; try done.
    exists (head_after_unlink nx p n). split; [|by apply IH].
    rewrite links_unlink_node. simpl. rewrite Hlk.
    rewrite (decide_False (P := _ ∧ link_next n = a)) by tauto.
    unfold head_after_unlink.
    destruct (decide (nx = p)) as [Hnx|Hnx].
    + rewrite decide_True; [done|]. split; [|tauto].
      rewrite (proj2 Hpred Hnx). done.
    + rewrite decide_False; [done|]. intros [_ Hx]. tauto.
Qed.

Lemma links_substitute_node h o new n a :
  links (substitute_node h o new n) a =
    let x := if decide (new = a) then Some (link_prev o, link_next o)
             else links h a in
    let x1 := if decide (link_prev o ≠ nullptr ∧ link_prev o = a)
              then (λ x, (x.1, new)) <$> x else x in
    if decide (link_next o ≠ nullptr ∧ link_next o = a)
    then (λ x, (new, x.2)) <$> x1 else x1.
Proof.
  unfold substitute_node.
  rewrite links_patch_prev, links_patch_next, links_insert.
  by rewrite prev_set_next, prev_set_prev, next_set_next.
Qed.

(** Substituting a node for a node of a list yields the list with the
    new node in the place of the old one. *)
Lemma substitute_dll h pv hd l old o new n :
  dll h pv hd l → pv ∉ l → h !! old = Some o → old ∈ l →
  new ≠ nullptr → new ∉ l → new ≠ pv →
  dll (substitute_node h o new n) pv (head_after_substitute hd old new)
    (substitute old new l).
Proof.
  intros Hd Hpv Ho Hold Hnew Hnl Hnpv. apply links_lookup in Ho.
  revert pv hd Hd Hpv Hnpv.
  induction l as [|a l IH]; intros pv hd Hd Hpv Hnpv.
  { by apply elem_of_nil in Hold. }
  assert (Hnd := dll_NoDup _ _ _ _ Hd Hpv).
  apply NoDup_cons in Hnd as [Hal Hnd].
  apply not_elem_of_cons in Hpv as [Hpva Hpvl].
  apply not_elem_of_cons in Hnl as [Hna Hnl].
  apply dll_cons in Hd as (-> & Ha & nx & Hlk & Hl).
  unfold head_after_substitute.
  destruct (decide (a = old)) as [->|Hne].
  - (* the head is substituted *)
    rewrite Ho in Hlk. injection Hlk as Hpo Hno.
    rewrite substitute_cons_eq, substitute_notin by done.
    assert (Hnx : nx ≠ new).
    { intros ->. destruct l as [|c l]; [done|].
      apply dll_cons in Hl as (-> & _). apply Hnl. left. }
    apply dll_cons. repeat split; try done. exists nx. split.
    + rewrite links_substitute_node. simpl.
      rewrite (decide_True (P := new = new)) by done.
      rewrite Hpo, Hno.
      rewrite (decide_False (P := _ ∧ pv = new)) by (intros [_ ?]; congruence).
      rewrite (decide_False (P := _ ∧ nx = new)) by tauto.
      done.
    + unfold substitute_node. rewrite Hno.
      apply (dll_patch_prev_head _ old); [|done].
      apply (dll_ext h); [|done]. intros b Hb.
      rewrite links_patch_next, links_insert.
      rewrite (decide_False (P := new = b)) by (intros ->; done).
      rewrite decide_False; [done|]. rewrite Hpo. intros [_ ->]. done.
  - apply elem_of_cons in Hold as [->|Hold]; [done|].
    assert (Hsucc : link_next o ≠ a)
      by (by eapply (dll_succ_other h a nx l old)).
    assert (Hpred := dll_pred_head h a nx l old _ _ Hl Hal Hold Ho).
    rewrite substitute_cons_ne by done.
    apply dll_cons. repeat split; try done.
    exists (head_after_substitute nx old new).
    split; [|by apply IH].
    rewrite links_substitute_node. simpl.
    rewrite (decide_False (P := new = a)) by done. rewrite Hlk.
    rewrite (decide_False (P := _ ∧ link_next o = a)) by tauto.
    unfold head_after_substitute.
    destruct (decide (nx = old)) as [Hnx|Hnx].
    + rewrite decide_True; [done|]. split; [|tauto].
      rewrite (proj2 Hpred Hnx). done.
    + rewrite decide_False; [done|]. intros [_ Hx]. tauto.
Qed.
End IntrusiveOps.

#[export] Instance Pointer_LinkedLaws : LinkedLaws Pointer.
Proof. by split. Qed.

#[export] Instance DeadBlock_LinkedLaws : LinkedLaws DeadBlock.
Proof. by split. Qed.

(** ** The chain of pointers *)

Lemma chain_wf_dll (b : Block) (ps : gmap Z Pointer) (l : list Z) :
  dll ps nullptr (Pointers b) l → chain_wf (b, ps) ∧ chain ps (Pointers b) = l.
Proof.
  intros Hd. assert (Hc := chain_dll _ _ _ Hd).
  split; [|done]. unfold chain_wf. simpl. by rewrite Hc.
Qed.

Lemma hasPointers_dll (b : Block) (ps : gmap Z Pointer) (l : list Z) :
  dll ps nullptr (Pointers b) l →
  hasPointers b = true ↔ (0 < length l)%nat.
Proof.
  unfold hasPointers. destruct l as [|a l]; simpl.
  - intros ->. simpl. split; [done | lia].
  - intros (-> & Ha & _). split; [lia|]. intros _.
    apply negb_true_iff, Z.eqb_neq. done.
Qed.

Lemma addPointer_dll (P : Z) (b : Block) (ps : gmap Z Pointer) (l : list Z) :
  dll ps nullptr (Pointers b) l →
  P ≠ nullptr → is_Some (ps !! P) → P ∉ l →
  let s' := addPointer P b ps in
  dll s'.2 nullptr (Pointers s'.1) (P :: l).
Proof.
  intros Hd HP [n Hn] Hl. unfold addPointer. rewrite Hn.
  cbn [fst snd set_Pointers Pointers]. by apply link_head_dll.
Qed.

Lemma removePointer_dll (P : Z) (b : Block) (ps : gmap Z Pointer)
    (l : list Z) :
  dll ps nullptr (Pointers b) l → P ∈ l →
  let s' := removePointer P b ps in
  dll s'.2 nullptr (Pointers s'.1) (without P l).
Proof.
  intros Hd HP. unfold removePointer.
  destruct (dll_lookup _ _ _ _ _ Hd HP) as (_ & pp & pn & Hlk & _).
  unfold links in Hlk. destruct (ps !! P) as [n|] eqn:Hn; [|done].
  cbn [fst snd set_Pointers Pointers].
  apply unlink_dll; [done | exact (dll_nonnull _ _ _ _ Hd) | done | done].
Qed.

Lemma replacePointer_dll (Old New : Z) (b : Block) (ps : gmap Z Pointer)
    (l : list Z) :
  dll ps nullptr (Pointers b) l →
  Old ∈ l → New ≠ nullptr → is_Some (ps !! New) → New ∉ l →
  let s' := replacePointer Old New b ps in
  dll s'.2 nullptr (Pointers s'.1) (substitute Old New l).
Proof.
  intros Hd HO HN [n Hn] Hl. unfold replacePointer.
  destruct (dll_lookup _ _ _ _ _ Hd HO) as (_ & pp & pn & Hlk & _).
  unfold links in Hlk. destruct (ps !! Old) as [o|] eqn:Ho; [|done].
  rewrite Hn. cbn [fst snd set_Pointers Pointers].
  apply substitute_dll; try done. exact (dll_nonnull _ _ _ _ Hd).
Qed.

(** A call that meets its requirements keeps the chain well formed. *)
Lemma chain_step_wf (op : ChainOp) (s : Block * gmap Z Pointer) :
  chain_wf s → chain_op_ok op s → chain_wf (chain_step op s).
Proof.
  destruct s as [b ps]. unfold chain_wf, chain_op_ok. simpl.
  set (l := chain ps (Pointers b)). intros Hd Hok.
  destruct op as [P|P|Old New]; simpl.
  - destruct Hok as (HP & Hs & Hl).
    pose proof (addPointer_dll P b ps l Hd HP Hs Hl) as Hd'.
    destruct (addPointer P b ps) as [b' ps']. by apply chain_wf_dll in Hd' as [? _].
  - pose proof (removePointer_dll P b ps l Hd Hok) as Hd'.
    destruct (removePointer P b ps) as [b' ps']. by apply chain_wf_dll in Hd' as [? _].
  - destruct Hok as (HO & HN & Hs & Hl).
    pose proof (replacePointer_dll Old New b ps l Hd HO HN Hs Hl) as Hd'.
    destruct (replacePointer Old New b ps) as [b' ps'].
    by apply chain_wf_dll in Hd' as [? _].
Qed.

Lemma chain_run_wf (ops : list ChainOp) (s : Block * gmap Z Pointer) :
  chain_wf s → chain_run_ok ops s → Forall chain_wf (chain_run ops s).
Proof.
  revert s. induction ops as [|op ops IH]; intros s Hwf Hok; simpl.
  - constructor.
  - destruct Hok as [Hop Hok].
    assert (Hwf' := chain_step_wf op s Hwf Hop).
    constructor; [done|]. by apply IH.
Qed.

(** A block that comes from a constructor has a well-formed, empty
    chain, whatever the pointers in the heap. *)
Lemma new_block_chain_wf (ps : gmap Z Pointer) (id : option Z) (D : Z)
    (st ex dd : bool) :
  chain_wf (Block_ctor id D st ex, ps) ∧
  chain_wf (Block_ctor_nodecl D st ex, ps) ∧
  chain_wf (Block_ctor_dead D ex st dd, ps).
Proof.
  assert (He : chain ps nullptr = []) by (unfold chain; by destruct (size ps)).
  unfold chain_wf. simpl. by rewrite He.
Qed.

(** C1: for a block whose chain is mutated only through addPointer,
    removePointer and replacePointer, each call meeting its requirements,
    hasPointers returns true if and only if the chain of attached
    pointers is not empty, before the calls and after every one of
    them; the chain stays well formed throughout. *)
Theorem hasPointers_iff_chain_nonempty
    (b : Block) (ps : gmap Z Pointer) (ops : list ChainOp) :
  chain_wf (b, ps) →
  chain_run_ok ops (b, ps) →
  Forall (λ s : Block * gmap Z Pointer,
            chain_wf s ∧
            (hasPointers s.1 = true ↔
             (0 < length (chain s.2 (Pointers s.1)))%nat))
    ((b, ps) :: chain_run ops (b, ps)).
Proof.
  intros Hwf Hok.
  assert (Hall : Forall chain_wf ((b, ps) :: chain_run ops (b, ps))).
  { constructor; [done|]. by apply chain_run_wf. }
  eapply Forall_impl; [exact Hall|].
  intros [b' ps'] Hwf'. split; [done|].
  by apply (hasPointers_dll b' ps').
Qed.

(** C7: replacePointer, given an attached pointer [Old] and a pointer
    [New] that is not attached, puts [New] where [Old] was: the chain
    keeps its length and its order, [Old] is no longer in it and [New]
    is at the position [Old] held; hasPointer tells the same. *)
Theorem replacePointer_substitutes
    (Old New : Z) (b : Block) (ps : gmap Z Pointer) :
  let l := chain ps (Pointers b) in
  let s' := replacePointer Old New b ps in
  let l' := chain s'.2 (Pointers s'.1) in
  chain_wf (b, ps) →
  Old ∈ l → New ≠ nullptr → is_Some (ps !! New) → New ∉ l →
  chain_wf s' ∧
  length l' = length l ∧
  (∀ (i : nat) (x : Z), l !! i = Some x →
    l' !! i = Some (if decide (x = Old) then New else x)) ∧
  (Old ∉ l') ∧
  hasPointer Old s'.1 s'.2 = false ∧
  hasPointer New s'.1 s'.2 = true.
Proof.
  intros l s' l' Hwf HO HN Hs Hl.
  pose proof (replacePointer_dll Old New b ps l Hwf HO HN Hs Hl) as Hd'.
  fold s' in Hd'. simpl in Hd'.
  assert (Hc : chain_wf s' ∧ l' = substitute Old New l).
  { subst l'. destruct s' as [b' ps']. by apply chain_wf_dll. }
  destruct Hc as [Hwf' Hl'].
  assert (Hgone : Old ∉ l').
  { rewrite Hl'. apply substitute_gone. intros ->. done. }
  split; [done|]. split; [rewrite Hl'; apply substitute_length|].
  split; [|split; [done|split]].
  - intros i x Hx. by rewrite Hl', substitute_lookup, Hx.
  - by apply bool_decide_eq_false.
  - apply bool_decide_eq_true. fold l'. rewrite Hl'.
    by apply substitute_new.
Qed.

(** ** Dead blocks *)

Section IntrusivePositions.
Context {N : Type} `{LinkedLaws N}.
Implicit Types (h : gmap Z N) (l : list Z).

Lemma dll_head h pv hd l : dll h pv hd l → hd = default nullptr (head l).
Proof.
  destruct l as [|a l]; [done|]. intros Hd.
  by apply dll_cons in Hd as (-> & _).
Qed.

(** The links of a node of a list are its neighbours in the list. *)
Lemma dll_app_links h pv hd l1 a l2 :
  dll h pv hd (l1 ++ a :: l2) →
  links h a = Some (default pv (last l1), default nullptr (head l2)).
Proof.
  revert pv hd. induction l1 as [|c l1 IH]; intros pv hd Hd.
  - apply dll_cons in Hd as (_ & _ & nx & Hlk & Hl).
    by rewrite Hlk, (dll_head _ _ _ _ Hl).
  - rewrite <-app_comm_cons in Hd.
    apply dll_cons in Hd as (_ & _ & nx & _ & Hl).
    rewrite (IH _ _ Hl), last_cons. by destruct (last l1).
Qed.

Lemma dll_is_Some h pv hd l a : dll h pv hd l → a ∈ l → is_Some (h !! a).
Proof.
  intros Hd Ha.
  destruct (dll_lookup _ _ _ _ _ Hd Ha) as (_ & pp & pn & Hlk & _).
  unfold links in Hlk. destruct (h !! a); [by eexists | done].
Qed.
End IntrusivePositions.

Lemma lookup_retarget (ps : gmap Z Pointer) (l : list Z) (t P : Z) :
  retarget ps l t !! P =
    if decide (P ∈ l) then set_Pointee t <$> ps !! P else ps !! P.
Proof.
  unfold retarget. induction l as [|a l IH]; [done|]. simpl.
  destruct (decide (a = P)) as [->|Hne].
  - rewrite lookup_alter_eq, IH.
    rewrite (decide_True (P := P ∈ P :: l)) by left.
    case_decide; [|done]. by destruct (ps !! P).
  - rewrite lookup_alter_ne, IH by done.
    destruct (decide (P ∈ l)) as [Hi|Hi].
    + by rewrite decide_True by (by right).
    + rewrite decide_False; [done|]. apply not_elem_of_cons. split; congruence.
Qed.

Lemma links_retarget (ps : gmap Z Pointer) (l : list Z) (t a : Z) :
  links (retarget ps l t) a = links ps a.
Proof.
  unfold links. rewrite lookup_retarget.
  case_decide; [|done]. by destruct (ps !! a).
Qed.

Section DeadBlockFacts.
Context `{Env}.

(** C6: constructing a dead block from a live block with a well-formed
    chain of N pointers copies the header (marked dead), the metadata
    and the data of the block into the storage of the new node, which
    has the size of the source; links the node at the head of the list
    and updates the root; and retargets every pointer of the chain to
    the embedded block: the chain keeps its N pointers in their order,
    and each of them reads through its data view the bytes that the
    source block held. *)
Theorem DeadBlock_ctor_relocates
    (this Root Blk : Z) (st : Heap) (b : Block) :
  let st' := DeadBlock_ctor this Root Blk st in
  let D := getDescriptor b in
  let l := chain (pointers st) (Pointers b) in
  blocks st !! Blk = Some b →
  chain_wf (b, pointers st) →
  dead_list_wf st Root →
  this ≠ nullptr →
  deadblocks st !! this = None →
  blocks st !! (this + offsetof_B) = None →
  0 ≤ getMetadataSize D →
  getMetadataSize D + getSize D ≤ getAllocSize D →
  ∃ d, deadblocks st' !! this = Some d ∧
    (Desc (B d) = Desc b ∧ Block_getSize (B d) = Block_getSize b ∧
     isStatic (B d) = isStatic b ∧ isExtern (B d) = isExtern b ∧
     getDeclID (B d) = getDeclID b ∧
     isInitialized (B d) = isInitialized b ∧ IsDead (B d) = true) ∧
    (∀ i, 0 ≤ i < Block_getSize b →
       bytes st' !! (DeadBlock_rawData this + i) =
       bytes st !! (rawData Blk + i)) ∧
    (roots st' !! Root = Some this ∧ dead_list_wf st' Root ∧
     dead_list st' Root = this :: dead_list st Root) ∧
    (chain_wf (B d, pointers st') ∧
     chain (pointers st') (Pointers (B d)) = l ∧
     length (chain (pointers st') (Pointers (B d))) = length l) ∧
    (∀ P, P ∈ l →
       Pointee <$> pointers st' !! P = Some (this + offsetof_B)) ∧
    (∀ P i, P ∈ l → 0 ≤ i < getSize D →
       data_view st' P i = bytes st !! (data Blk b + i)).
Proof.
  intros st' D l Hb Hwf Hdl Hthis Hfresh Hnoblk Hmd Hsz.
  unfold dead_list_wf in Hdl.
  destruct (roots st !! Root) as [r|] eqn:Hr; [|done].
  set (L := chain (deadblocks st) r) in Hdl.
  assert (Hst' : st' =
    {| blocks := blocks st;
       deadblocks :=
         link_head (deadblocks st) r this
           (mkDeadBlock Root nullptr nullptr (dead_copy b));
       pointers := retarget (pointers st) l (this + offsetof_B);
       roots := <[Root := this]> (roots st);
       bytes :=
         memcpy (bytes st) (rawData (this + offsetof_B)) (rawData Blk)
           (Block_getSize b) |}).
  { subst st'. unfold DeadBlock_ctor. by rewrite Hb, Hr. }
  set (nd := set_next r (set_prev nullptr
               (mkDeadBlock Root nullptr nullptr (dead_copy b)))).
  assert (Hnd : deadblocks st' !! this = Some nd).
  { rewrite Hst'. cbn [blocks deadblocks pointers roots bytes]. unfold link_head. by rewrite lookup_insert_eq. }
  assert (Hbytes : ∀ i, 0 ≤ i < Block_getSize b →
    bytes st' !! (DeadBlock_rawData this + i) =
    bytes st !! (rawData Blk + i)).
  { intros i Hi. rewrite Hst'. cbn [blocks deadblocks pointers roots bytes]. rewrite lookup_memcpy.
    unfold DeadBlock_rawData.
    rewrite decide_True by lia. f_equal. lia. }
  assert (HthisL : this ∉ L).
  { intros Hin. destruct (dll_is_Some _ _ _ _ _ Hdl Hin) as [x Hx].
    congruence. }
  assert (Hlist : dll (deadblocks st') nullptr this (this :: L)).
  { rewrite Hst'. cbn [blocks deadblocks pointers roots bytes]. by apply link_head_dll. }
  assert (Hchain : dll (pointers st') nullptr (Pointers (B nd)) l).
  { rewrite Hst'. cbn [blocks deadblocks pointers roots bytes]. apply (dll_ext (pointers st)); [|exact Hwf].
    intros a _. apply links_retarget. }
  assert (Hptee : ∀ P, P ∈ l →
    Pointee <$> pointers st' !! P = Some (this + offsetof_B)).
  { intros P HP. rewrite Hst'. cbn [blocks deadblocks pointers roots bytes].
    rewrite lookup_retarget, decide_True by done.
    destruct (dll_is_Some _ _ _ _ _ Hwf HP) as [n Hn]. simpl in Hn.
    by rewrite Hn. }
  exists nd. split; [done|]. split; [done|]. split; [done|].
  split; [|split; [|split; [done|]]].
  - split; [rewrite Hst'; cbn [blocks deadblocks pointers roots bytes]; apply lookup_insert_eq|].
    unfold dead_list_wf, dead_list.
    assert (Hr' : roots st' !! Root = Some this)
      by (rewrite Hst'; cbn [blocks deadblocks pointers roots bytes]; apply lookup_insert_eq).
    rewrite Hr', Hr. rewrite (chain_dll _ _ _ Hlist). done.
  - destruct (chain_wf_dll (B nd) (pointers st') l Hchain) as [? Hc].
    by rewrite Hc.
  - intros P i HP Hi. unfold data_view.
    specialize (Hptee P HP).
    destruct (pointers st' !! P) as [n|]; [|done].
    simpl in Hptee. injection Hptee as Hptee. simpl. rewrite Hptee.
    unfold block_at.
    assert (Hblk : blocks st' !! (this + offsetof_B) = None)
      by (by rewrite Hst').
    rewrite Hblk. replace (this + offsetof_B - offsetof_B) with this by lia.
    rewrite Hnd. simpl.
    unfold data, getDescriptor. simpl.
    fold (getDescriptor b). fold D.
    specialize (Hbytes (getMetadataSize D + i)).
    unfold DeadBlock_rawData in Hbytes.
    rewrite <-!Z.add_assoc. apply Hbytes.
    unfold Block_getSize. fold D. lia.
Qed.
End DeadBlockFacts.

Lemma fmap_lookup_alter_inv {A C : Type} (g : A → C) (f : A → A)
    (h : gmap Z A) (a b : Z) :
  (∀ n, g (f n) = g n) → g <$> alter f a h !! b = g <$> h !! b.
Proof.
  intros Hg. destruct (decide (a = b)) as [->|Hne].
  - rewrite lookup_alter_eq. destruct (h !! b); simpl; [|done].
    by rewrite Hg.
  - by rewrite lookup_alter_ne.
Qed.

(** Unlinking a node touches links only. *)
Lemma B_unlink_node (h : gmap Z DeadBlock) (d : DeadBlock) (a : Z) :
  B <$> unlink_node h d !! a = B <$> h !! a.
Proof.
  unfold unlink_node, patch_prev, patch_next.
  repeat case_decide; rewrite ?fmap_lookup_alter_inv; done.
Qed.

Section FreeFacts.
Context `{Env}.

Lemma dead_list_wf_dll (st : Heap) (Root r : Z) (l : list Z) :
  roots st !! Root = Some r →
  dll (deadblocks st) nullptr r l →
  dead_list_wf st Root ∧ dead_list st Root = l.
Proof.
  intros Hr Hd. unfold dead_list_wf, dead_list. rewrite Hr.
  by rewrite (chain_dll _ _ _ Hd).
Qed.

(** C8: free, on a dead block that is in the list under its root,
    unlinks the node: its neighbours are linked to each other, the root
    is moved to the next node when the node was the head, and the list
    is the one before without the node, wherever the node was (head:
    [l1] empty; tail: [l2] empty; middle: neither); the node and its
    bytes are gone from the heap afterwards.  The caller calls free
    once the chain of the embedded block is empty; nothing here depends
    on the chain. *)
Theorem free_unlinks
    (this : Z) (st : Heap) (d : DeadBlock) (l1 l2 : list Z) :
  let st' := free this st in
  deadblocks st !! this = Some d →
  dead_list_wf st (Root d) →
  dead_list st (Root d) = l1 ++ this :: l2 →
  (dead_list_wf st' (Root d) ∧ dead_list st' (Root d) = l1 ++ l2) ∧
  roots st' !! Root d = Some (default nullptr (head (l1 ++ l2))) ∧
  (∀ p, last l1 = Some p →
     Next <$> deadblocks st' !! p = Some (default nullptr (head l2))) ∧
  (∀ n, head l2 = Some n →
     Prev <$> deadblocks st' !! n = Some (default nullptr (last l1))) ∧
  (∀ a, B <$> deadblocks st' !! a =
        if decide (a = this) then None else B <$> deadblocks st !! a) ∧
  (∀ i, 0 ≤ i < Block_getSize (B d) →
     bytes st' !! (DeadBlock_rawData this + i) = None) ∧
  blocks st' = blocks st ∧ pointers st' = pointers st.
Proof.
  intros st' Hd Hwf Hlist.
  unfold dead_list_wf in Hwf. unfold dead_list in Hlist.
  destruct (roots st !! Root d) as [r|] eqn:Hr; [|done].
  rewrite Hlist in Hwf.
  assert (Hst' : st' =
    {| blocks := blocks st;
       deadblocks := delete this (unlink_node (deadblocks st) d);
       pointers := pointers st;
       roots := if decide (r = this) then <[Root d := Next d]> (roots st)
                else roots st;
       bytes := reclaim (bytes st) (DeadBlock_rawData this)
                  (Block_getSize (B d)) |}).
  { subst st'. unfold free. by rewrite Hd, Hr. }
  assert (Hnd : NoDup (l1 ++ this :: l2)).
  { apply (dll_NoDup _ _ _ _ Hwf). exact (dll_nonnull _ _ _ _ Hwf). }
  assert (Hin : this ∈ l1 ++ this :: l2).
  { apply elem_of_app. right. left. }
  assert (Hthis : this ∉ l1 ++ l2).
  { rewrite <-(without_app this l1 l2 Hnd). unfold without.
    intros Hx. apply list_elem_of_filter in Hx as [Hx _]. done. }
  assert (Hroot : roots st' !! Root d = Some (head_after_unlink r this d)).
  { rewrite Hst'. cbn [roots]. unfold head_after_unlink.
    destruct (decide (r = this)); [apply lookup_insert_eq | done]. }
  assert (Hdll : dll (deadblocks st') nullptr
                   (head_after_unlink r this d) (l1 ++ l2)).
  { rewrite Hst'. cbn [deadblocks].
    apply (dll_ext (unlink_node (deadblocks st) d)).
    - intros a Ha. apply links_delete_ne. intros ->. done.
    - rewrite <-(without_app this l1 l2 Hnd).
      apply unlink_dll; [done | exact (dll_nonnull _ _ _ _ Hwf) | done..]. }
  split; [by apply (dead_list_wf_dll st' (Root d) _ _ Hroot)|].
  split; [by rewrite Hroot, (dll_head _ _ _ _ Hdll)|].
  split; [|split; [|split; [|split]]].
  - intros p Hp.
    destruct l1 as [|c l1] using rev_ind; [done|].
    rewrite last_snoc in Hp. injection Hp as ->.
    rewrite <-app_assoc in Hdll. simpl in Hdll.
    apply dll_app_links in Hdll. unfold links in Hdll.
    destruct (deadblocks st' !! p) as [x|]; [|done].
    simpl in Hdll. injection Hdll as _ Hx. simpl. by rewrite Hx.
  - intros n Hn. destruct l2 as [|c l2]; [done|].
    injection Hn as ->.
    apply dll_app_links in Hdll. unfold links in Hdll.
    destruct (deadblocks st' !! n) as [x|]; [|done].
    simpl in Hdll. injection Hdll as Hx _. simpl. by rewrite Hx.
  - intros a. rewrite Hst'. cbn [deadblocks].
    destruct (decide (a = this)) as [->|Hne];
      [by rewrite lookup_delete_eq|].
    rewrite lookup_delete_ne by done. apply B_unlink_node.
  - intros i Hi. rewrite Hst'. cbn [bytes].
    rewrite lookup_reclaim, decide_True; [done | lia].
  - by rewrite Hst'.
Qed.
End FreeFacts.

(** ** Layout and lifecycle of a block *)

Lemma chain_step_header (op : ChainOp) (s : Block * gmap Z Pointer) :
  let b' := (chain_step op s).1 in
  DeclID b' = DeclID s.1 ∧ IsStatic b' = IsStatic s.1 ∧
  IsExtern b' = IsExtern s.1 ∧ IsDead b' = IsDead s.1 ∧
  IsInitialized b' = IsInitialized s.1 ∧ Desc b' = Desc s.1.
Proof.
  destruct s as [b ps]. destruct op as [P|P|Old New]; simpl.
  - unfold addPointer. by destruct (ps !! P).
  - unfold removePointer. by destruct (ps !! P).
  - unfold replacePointer. by destruct (ps !! Old), (ps !! New).
Qed.

Section BlockFacts.
Context `{Env}.

(** C3: data() is rawData() plus the size of the metadata region of
    the descriptor, and rawData() is the address just behind the block
    header. *)
Theorem data_after_metadata (this : Z) (b : Block) (md : Z) :
  getMetadataSize (getDescriptor b) = md →
  rawData this = this + sizeof_Block ∧ data this b = rawData this + md.
Proof. intros <-. done. Qed.

(** C2: invokeCtor zero-fills the getAllocSize() bytes from rawData()
    on; then, if the descriptor has a CtorFn, calls it on the zeroed
    bytes with the block (as it was before the call: the initialized
    flag is not yet set), data(), the IsConst and IsMutable flags, true
    for isActive, and the descriptor; and sets IsInitialized to true
    last, the rest of the header unchanged. *)
Theorem invokeCtor_spec (this : Z) (b : Block) (m : gmap Z byte) :
  let D := getDescriptor b in
  let zeroed := memset m (rawData this) x00 (getAllocSize D) in
  (∀ a, zeroed !! a =
        if decide (rawData this ≤ a < rawData this + getAllocSize D)
        then Some x00 else m !! a) ∧
  (invokeCtor this b m).2 =
    match CtorFn D with
    | Some f =>
        f (this, b) (data this b) (IsConst D) (IsMutable D) true (Desc b)
          zeroed
    | None => zeroed
    end ∧
  (invokeCtor this b m).1 = set_IsInitialized true b ∧
  isInitialized (invokeCtor this b m).1 = true.
Proof.
  intros D zeroed. split; [|done].
  intros a. apply lookup_memset.
Qed.

Lemma block_step_header (this : Z) (op : BlockOp) (s : BlockState) :
  let b := bs_block s in
  let b' := bs_block (block_step this op s) in
  DeclID b' = DeclID b ∧ IsStatic b' = IsStatic b ∧
  IsExtern b' = IsExtern b ∧ IsDead b' = IsDead b ∧ Desc b' = Desc b ∧
  IsInitialized b' =
    match op with
    | InvokeCtor => true
    | InvokeDtor => false
    | Chain _ => IsInitialized b
    end.
Proof.
  destruct op as [| |op]; simpl; try done.
  destruct (chain_step_header op (bs_block s, bs_pointers s))
    as (? & ? & ? & ? & ? & ?).
  done.
Qed.

Lemma block_run_cons (this : Z) (ops : list BlockOp) (op : BlockOp)
    (s : BlockState) :
  block_run this (op :: ops) s = block_run this ops (block_step this op s).
Proof. done. Qed.

(** C4: after invokeCtor the initialized flag reads true, after a
    following invokeDtor it reads false; over any run of calls on a
    block the flag is that of a new block (false) until the first
    lifecycle call and afterwards tells whether the last lifecycle
    call was invokeCtor. *)
Theorem isInitialized_lifecycle
    (this : Z) (s : BlockState) (ops : list BlockOp)
    (id : option Z) (D : Z) (st ex dd : bool) :
  isInitialized (bs_block (block_step this InvokeCtor s)) = true ∧
  isInitialized
    (bs_block (block_step this InvokeDtor (block_step this InvokeCtor s)))
    = false ∧
  isInitialized (bs_block (block_run this ops s))
    = last_lifecycle ops (isInitialized (bs_block s)) ∧
  isInitialized (Block_ctor id D st ex) = false ∧
  isInitialized (Block_ctor_nodecl D st ex) = false ∧
  isInitialized (Block_ctor_dead D ex st dd) = false.
Proof.
  split; [done|]. split; [done|]. split; [|done].
  revert s. induction ops as [|op ops IH]; intros s; [done|].
  rewrite block_run_cons, IH. unfold isInitialized.
  destruct (block_step_header this op s) as (_ & _ & _ & _ & _ & Hi).
  simpl in Hi. rewrite Hi. by destruct op.
Qed.

(** C5, as amended: without a DtorFn, invokeDtor only sets
    IsInitialized to false; without a CtorFn, invokeCtor sets
    IsInitialized to true and zero-fills the getAllocSize() bytes from
    rawData() on, every other byte and the rest of the header
    unchanged. *)
Theorem invoke_without_callback (this : Z) (b : Block) (m : gmap Z byte) :
  let D := getDescriptor b in
  (DtorFn D = None → invokeDtor this b m = (set_IsInitialized false b, m)) ∧
  (CtorFn D = None →
     (invokeCtor this b m).1 = set_IsInitialized true b ∧
     ∀ a, (invokeCtor this b m).2 !! a =
          if decide (rawData this ≤ a < rawData this + getAllocSize D)
          then Some x00 else m !! a).
Proof.
  intros D. split.
  - intros HD. unfold invokeDtor. fold D. by rewrite HD.
  - intros HC. split; [done|]. intros a.
    unfold invokeCtor. fold D. rewrite HC. simpl. apply lookup_memset.
Qed.

(** C9: the constructors set the static and extern flags from their
    arguments; the public forms leave the dead flag false and the
    protected form sets it; no run of calls on a block changes any of
    the three flags; and the header of a dead block has the static and
    extern flags of its source and the dead flag set, which no later
    call clears. *)
Theorem storage_flags_fixed
    (this : Z) (s : BlockState) (ops : list BlockOp)
    (id : option Z) (D : Z) (st ex dd : bool) (b : Block) :
  (isStatic (Block_ctor id D st ex) = st ∧
   isExtern (Block_ctor id D st ex) = ex ∧
   IsDead (Block_ctor id D st ex) = false) ∧
  (isStatic (Block_ctor_nodecl D st ex) = st ∧
   isExtern (Block_ctor_nodecl D st ex) = ex ∧
   IsDead (Block_ctor_nodecl D st ex) = false) ∧
  (isStatic (Block_ctor_dead D ex st dd) = st ∧
   isExtern (Block_ctor_dead D ex st dd) = ex ∧
   IsDead (Block_ctor_dead D ex st dd) = true) ∧
  (isStatic (bs_block (block_run this ops s)) = isStatic (bs_block s) ∧
   isExtern (bs_block (block_run this ops s)) = isExtern (bs_block s) ∧
   IsDead (bs_block (block_run this ops s)) = IsDead (bs_block s)) ∧
  (isStatic (dead_copy b) = isStatic b ∧
   isExtern (dead_copy b) = isExtern b ∧
   IsDead (dead_copy b) = true ∧
   IsDead (bs_block (block_run this ops
             (mkBlockState (dead_copy b) (bs_pointers s) (bs_bytes s))))
     = true).
Proof.
  assert (Hrun : ∀ ops s,
    isStatic (bs_block (block_run this ops s)) = isStatic (bs_block s) ∧
    isExtern (bs_block (block_run this ops s)) = isExtern (bs_block s) ∧
    IsDead (bs_block (block_run this ops s)) = IsDead (bs_block s)).
  { clear. intros ops. induction ops as [|op ops IH]; intros s; [done|].
    rewrite block_run_cons. destruct (IH (block_step this op s)) as (-> & -> & ->).
    destruct (block_step_header this op s) as (_ & ? & ? & ? & _).
    done. }
  repeat split; try done; apply Hrun.
Qed.
End BlockFacts.

(** C10: the public constructor without a declaration sets DeclID to
    (unsigned)-1, so getDeclID() holds 4294967295; the protected
    constructor leaves DeclID empty; the constructor with a declaration
    stores the optional it is given. *)
Theorem getDeclID_ctors (id : option Z) (D : Z) (st ex dd : bool) :
  getDeclID (Block_ctor_nodecl D st ex) = Some 4294967295 ∧
  getDeclID (Block_ctor_dead D ex st dd) = None ∧
  getDeclID (Block_ctor id D st ex) = id.
Proof. done. Qed.

(** ** More on construct and destroy *)

Lemma memset_agree (m m' : gmap Z byte) (p : Z) (c : byte) (n : Z) :
  (∀ a, ¬ (p ≤ a < p + n) → m !! a = m' !! a) →
  memset m p c n = memset m' p c n.
Proof.
  intros Hag. apply map_eq. intros a. rewrite !lookup_memset.
  case_decide; [done | by apply Hag].
Qed.

Lemma memset_idemp (m : gmap Z byte) (p : Z) (c : byte) (n : Z) :
  memset (memset m p c n) p c n = memset m p c n.
Proof.
  apply memset_agree. intros a Ha. by rewrite lookup_memset, decide_False.
Qed.

Lemma set_IsInitialized_twice (i j : bool) (b : Block) :
  set_IsInitialized i (set_IsInitialized j b) = set_IsInitialized i b.
Proof. done. Qed.

Section LifecycleFacts.
Context `{Env}.

(** X1: invokeCtor erases what the allocation held: two byte stores that
    agree outside the getAllocSize() bytes from rawData() on give the
    same block and the same bytes, whatever the CtorFn does. *)
Theorem invokeCtor_erases_previous
    (this : Z) (b : Block) (m m' : gmap Z byte) :
  let D := getDescriptor b in
  (∀ a, ¬ (rawData this ≤ a < rawData this + getAllocSize D) →
        m !! a = m' !! a) →
  invokeCtor this b m = invokeCtor this b m'.
Proof.
  intros D Hag. unfold invokeCtor. fold D.
  by rewrite (memset_agree m m' _ _ _ Hag).
Qed.

(** X2: after invokeCtor on a descriptor without a CtorFn, each of the
    getSize() bytes that may be read from data() is zero, provided the
    allocation holds the metadata and the data. *)
Theorem invokeCtor_zero_data
    (this : Z) (b : Block) (m : gmap Z byte) (i : Z) :
  let D := getDescriptor b in
  CtorFn D = None →
  0 ≤ getMetadataSize D →
  getMetadataSize D + getSize D ≤ getAllocSize D →
  0 ≤ i < getSize D →
  (invokeCtor this b m).2 !! (data this b + i) = Some x00.
Proof.
  intros D HC Hmd Hsz Hi. unfold invokeCtor. fold D. rewrite HC.
  cbn [snd]. rewrite lookup_memset. unfold data. fold D.
  rewrite decide_True; [done | lia].
Qed.

(** X6: constructing a block on a descriptor without a CtorFn leaves
    the bytes of every other block alone: a byte in the allocation of a
    block whose allocation does not overlap reads as before. *)
Theorem invokeCtor_keeps_other_block
    (this other : Z) (b bo : Block) (m : gmap Z byte) (i : Z) :
  let D := getDescriptor b in
  let Do := getDescriptor bo in
  CtorFn D = None →
  rawData other + getAllocSize Do ≤ rawData this ∨
  rawData this + getAllocSize D ≤ rawData other →
  0 ≤ i < getAllocSize Do →
  (invokeCtor this b m).2 !! (rawData other + i) = m !! (rawData other + i).
Proof.
  intros D Do HC Hdis Hi. unfold invokeCtor. fold D. rewrite HC.
  cbn [snd]. rewrite lookup_memset, decide_False; [done | lia].
Qed.

Lemma lifecycle_run_cons (this : Z) (c : LifecycleCall)
    (cs : list LifecycleCall) (s : Block * gmap Z byte) :
  lifecycle_run this (c :: cs) s =
  lifecycle_run this cs (lifecycle_step this c s).
Proof. done. Qed.

(** X3: on a descriptor with neither callback, a run of lifecycle calls
    in any order comes to this: the initialized flag tells whether the
    last call was invokeCtor, and the bytes are zero-filled once if
    invokeCtor was called at all and untouched otherwise.  So a second
    invokeCtor changes nothing, and invokeDtor never undoes the
    zero-fill. *)
Theorem lifecycle_run_without_callbacks
    (this : Z) (cs : list LifecycleCall) (b : Block) (m : gmap Z byte) :
  let D := getDescriptor b in
  CtorFn D = None →
  DtorFn D = None →
  lifecycle_run this cs (b, m) =
    (match last cs with
     | None => b
     | Some Construct => set_IsInitialized true b
     | Some Destroy => set_IsInitialized false b
     end,
     if bool_decide (Construct ∈ cs)
     then memset m (rawData this) x00 (getAllocSize D)
     else m).
Proof.
  intros D HC HD. revert b m D HC HD.
  induction cs as [|c cs IH]; intros b m D HC HD; [done|].
  rewrite lifecycle_run_cons, last_cons.
  destruct c; unfold lifecycle_step; cbn [fst snd].
  - unfold invokeCtor. fold D. rewrite HC.
    rewrite (IH (set_IsInitialized true b)) by done.
    rewrite (bool_decide_eq_true_2 (Construct ∈ Construct :: cs)) by left.
    f_equal.
    + by destruct (last cs) as [[]|].
    + change (getDescriptor (set_IsInitialized true b)) with D.
      case_bool_decide; [apply memset_idemp | done].
  - unfold invokeDtor. fold D. rewrite HD.
    rewrite (IH (set_IsInitialized false b)) by done.
    f_equal.
    + by destruct (last cs) as [[]|].
    + change (getDescriptor (set_IsInitialized false b)) with D.
      destruct (decide (Construct ∈ cs)) as [Hin|Hin].
      * rewrite !bool_decide_eq_true_2; [done | by right | done].
      * rewrite !bool_decide_eq_false_2; [done | | done].
        apply not_elem_of_cons. by split.
Qed.

Lemma lifecycle_step_block (this : Z) (c : LifecycleCall)
    (s : Block * gmap Z byte) :
  ∃ i, (lifecycle_step this c s).1 = set_IsInitialized i s.1.
Proof. destruct c; [by exists true | by exists false]. Qed.

(** X4: whatever the callbacks do, no run of invokeCtor and invokeDtor
    moves or resizes a block or changes what it is: the descriptor, the
    size, the declaration, the temporary flag, the chain head and the
    addresses of the data are those before the run. *)
Theorem lifecycle_run_keeps_identity
    (this : Z) (cs : list LifecycleCall) (b : Block) (m : gmap Z byte) :
  let b' := (lifecycle_run this cs (b, m)).1 in
  getDescriptor b' = getDescriptor b ∧
  Block_getSize b' = Block_getSize b ∧
  getDeclID b' = getDeclID b ∧
  isTemporary b' = isTemporary b ∧
  hasPointers b' = hasPointers b ∧
  Pointers b' = Pointers b ∧
  data this b' = data this b.
Proof.
  assert (Hrun : ∀ cs s,
    (lifecycle_run this cs s).1 = s.1 ∨
    ∃ i, (lifecycle_run this cs s).1 = set_IsInitialized i s.1).
  { clear. intros cs. induction cs as [|c cs IH]; intros s; [by left|].
    rewrite lifecycle_run_cons. right.
    destruct (lifecycle_step_block this c s) as [i Hi].
    destruct (IH (lifecycle_step this c s)) as [->|[j ->]].
    - by exists i.
    - exists j. by rewrite Hi. }
  intros b'. subst b'.
  destruct (Hrun cs (b, m)) as [->|[i ->]]; done.
Qed.
End LifecycleFacts.

(** X5: the protected constructor takes the extern flag before the
    static flag, the public constructors the static flag first: given
    the same two flags in the same positions it builds a block whose
    static and extern flags are those of the public form exchanged, and
    the two agree only when the flags are equal. *)
Theorem Block_ctor_dead_flag_order (D : Z) (x y dd : bool) :
  isStatic (Block_ctor_dead D x y dd) = isExtern (Block_ctor_nodecl D x y) ∧
  isExtern (Block_ctor_dead D x y dd) = isStatic (Block_ctor_nodecl D x y) ∧
  ((isStatic (Block_ctor_dead D x y dd) = isStatic (Block_ctor_nodecl D x y) ∧
    isExtern (Block_ctor_dead D x y dd) = isExtern (Block_ctor_nodecl D x y))
   ↔ x = y).
Proof. destruct x, y; simpl; intuition congruence. Qed.

(** ** The properties on the concrete configuration *)

#[local] Existing Instance ex_env.

Lemma hasPointers_iff_chain_nonempty_witness :
  Forall (λ s : Block * gmap Z Pointer,
            chain_wf s ∧
            (hasPointers s.1 = true ↔
             (0 < length (chain s.2 (Pointers s.1)))%nat))
    ((ex_block, ex_pointers) ::
     chain_run [Attach 40; Detach 20; Retarget 30 20; Detach 10; Detach 40;
                Detach 20] (ex_block, ex_pointers)).
Proof.
  apply hasPointers_iff_chain_nonempty;
    apply (bool_decide_unpack _); vm_compute; exact I.
Defined.

Lemma replacePointer_substitutes_witness :
  let l := chain ex_pointers (Pointers ex_block) in
  let s' := replacePointer 20 40 ex_block ex_pointers in
  let l' := chain s'.2 (Pointers s'.1) in
  chain_wf s' ∧
  length l' = length l ∧
  (∀ (i : nat) (x : Z), l !! i = Some x →
    l' !! i = Some (if decide (x = 20) then 40 else x)) ∧
  (20 ∉ l') ∧
  hasPointer 20 s'.1 s'.2 = false ∧
  hasPointer 40 s'.1 s'.2 = true.
Proof.
  apply (replacePointer_substitutes 20 40 ex_block ex_pointers).
  - apply (bool_decide_unpack _). vm_compute. exact I.
  - apply (bool_decide_unpack _). vm_compute. exact I.
  - lia.
  - by eexists.
  - apply (bool_decide_unpack _). vm_compute. exact I.
Defined.

Lemma data_after_metadata_witness :
  rawData 100 = 100 + 32 ∧ data 100 ex_block = rawData 100 + 8.
Proof. exact (data_after_metadata 100 ex_block 8 eq_refl). Defined.

(** The callbacks run before the flag is written: the construct callback
    sees a block that is not initialized, the destroy callback one that
    still is. *)
Example invokeCtor_marks_uninitialized :
  let r := @invokeCtor ex_env_marking 100 ex_block ex_bytes in
  r.2 !! 140 = Some xff ∧ r.2 !! 141 = Some x00 ∧ isInitialized r.1 = true.
Proof. vm_compute. done. Qed.

Example invokeDtor_marks_initialized :
  let r := @invokeCtor ex_env_marking 100 ex_block ex_bytes in
  let r' := @invokeDtor ex_env_marking 100 r.1 r.2 in
  r'.2 !! 140 = Some x01 ∧ isInitialized r'.1 = false.
Proof. vm_compute. done. Qed.

Lemma invoke_without_callback_witness :
  invokeDtor 100 ex_block ex_bytes = (set_IsInitialized false ex_block, ex_bytes) ∧
  (invokeCtor 100 ex_block ex_bytes).1 = set_IsInitialized true ex_block ∧
  ∀ a, (invokeCtor 100 ex_block ex_bytes).2 !! a =
       if decide (132 ≤ a < 132 + 32) then Some x00 else ex_bytes !! a.
Proof.
  destruct (invoke_without_callback 100 ex_block ex_bytes) as [Hd Hc].
  split; [apply Hd; reflexivity | apply Hc; reflexivity].
Defined.

(** C5 fails for invokeCtor: on a descriptor without a CtorFn the call
    still zero-fills, so the bytes of the block are not what they
    were. *)
Lemma invokeCtor_without_callback_changes_bytes :
  ¬ (CtorFn (getDescriptor ex_block) = None →
     (invokeCtor 100 ex_block ex_bytes).2 = ex_bytes).
Proof.
  intros Hc. specialize (Hc eq_refl).
  assert (Hb : (invokeCtor 100 ex_block ex_bytes).2 !! 140 = Some x00)
    by (vm_compute; reflexivity).
  rewrite Hc in Hb. vm_compute in Hb. discriminate Hb.
Qed.

Lemma DeadBlock_ctor_relocates_witness :
  let this := 1000 in
  let Root := 500 in
  let Blk := 100 in
  let st := ex_heap in
  let b := ex_block in
  let st' := DeadBlock_ctor this Root Blk st in
  let D := getDescriptor b in
  let l := chain (pointers st) (Pointers b) in
  ∃ d, deadblocks st' !! this = Some d ∧
    (Desc (B d) = Desc b ∧ Block_getSize (B d) = Block_getSize b ∧
     isStatic (B d) = isStatic b ∧ isExtern (B d) = isExtern b ∧
     getDeclID (B d) = getDeclID b ∧
     isInitialized (B d) = isInitialized b ∧ IsDead (B d) = true) ∧
    (∀ i, 0 ≤ i < Block_getSize b →
       bytes st' !! (DeadBlock_rawData this + i) =
       bytes st !! (rawData Blk + i)) ∧
    (roots st' !! Root = Some this ∧ dead_list_wf st' Root ∧
     dead_list st' Root = this :: dead_list st Root) ∧
    (chain_wf (B d, pointers st') ∧
     chain (pointers st') (Pointers (B d)) = l ∧
     length (chain (pointers st') (Pointers (B d))) = length l) ∧
    (∀ P, P ∈ l →
       Pointee <$> pointers st' !! P = Some (this + offsetof_B)) ∧
    (∀ P i, P ∈ l → 0 ≤ i < getSize D →
       data_view st' P i = bytes st !! (data Blk b + i)).
Proof.
  apply (DeadBlock_ctor_relocates 1000 500 100 ex_heap ex_block).
  - reflexivity.
  - apply (bool_decide_unpack _). vm_compute. exact I.
  - apply (bool_decide_unpack _). vm_compute. exact I.
  - lia.
  - reflexivity.
  - reflexivity.
  - vm_compute. discriminate.
  - vm_compute. discriminate.
Defined.

Lemma free_unlinks_witness :
  let this := 2000 in
  let st := ex_heap3 in
  let d := ex_dead2 in
  let l1 := [3000] in
  let l2 := [1000] in
  let st' := free this st in
  (dead_list_wf st' (Root d) ∧ dead_list st' (Root d) = l1 ++ l2) ∧
  roots st' !! Root d = Some (default nullptr (head (l1 ++ l2))) ∧
  (∀ p, last l1 = Some p →
     Next <$> deadblocks st' !! p = Some (default nullptr (head l2))) ∧
  (∀ n, head l2 = Some n →
     Prev <$> deadblocks st' !! n = Some (default nullptr (last l1))) ∧
  (∀ a, B <$> deadblocks st' !! a =
        if decide (a = this) then None else B <$> deadblocks st !! a) ∧
  (∀ i, 0 ≤ i < Block_getSize (B d) →
     bytes st' !! (DeadBlock_rawData this + i) = None) ∧
  blocks st' = blocks st ∧ pointers st' = pointers st.
Proof.
  apply (free_unlinks 2000 ex_heap3 ex_dead2 [3000] [1000]).
  - vm_compute. reflexivity.
  - apply (bool_decide_unpack _). vm_compute. exact I.
  - vm_compute. reflexivity.
Defined.

(** The three positions of a node in the list [3000; 2000; 1000]. *)
Example free_head :
  dead_list (free 3000 ex_heap3) 500 = [2000; 1000] ∧
  roots (free 3000 ex_heap3) !! 500 = Some 2000 ∧
  Prev <$> deadblocks (free 3000 ex_heap3) !! 2000 = Some nullptr.
Proof. vm_compute. done. Qed.

Example free_middle :
  dead_list (free 2000 ex_heap3) 500 = [3000; 1000] ∧
  roots (free 2000 ex_heap3) !! 500 = Some 3000 ∧
  Next <$> deadblocks (free 2000 ex_heap3) !! 3000 = Some 1000 ∧
  Prev <$> deadblocks (free 2000 ex_heap3) !! 1000 = Some 3000.
Proof. vm_compute. done. Qed.

Example free_tail :
  dead_list (free 1000 ex_heap3) 500 = [3000; 2000] ∧
  roots (free 1000 ex_heap3) !! 500 = Some 3000 ∧
  Next <$> deadblocks (free 1000 ex_heap3) !! 2000 = Some nullptr.
Proof. vm_compute. done. Qed.

(** The scenario, step by step: the data is zero after the construct;
    with one of two pointers detached the block still has pointers; the
    remaining pointer reads [0xAA] through the dead block; with the last
    pointer detached the dead block has none; after the release the list
    is empty and the bytes are gone. *)
Example scenario_outlives_storage :
  (sc_constructed.2 !! 132 = Some x00 ∧
   sc_constructed.2 !! 147 = Some x00 ∧
   isInitialized sc_constructed.1 = true) ∧
  (chain sc_attached.2 (Pointers sc_attached.1) = [20] ∧
   hasPointers sc_attached.1 = true) ∧
  (dead_list sc_relocated 500 = [1000] ∧
   @data_view sc_env sc_relocated 20 0 = Some xaa ∧
   @data_view sc_env sc_relocated 20 15 = Some xaa) ∧
  (hasPointers <$> (fst <$> sc_detached) = Some false) ∧
  (dead_list sc_released 500 = [] ∧
   bytes sc_released !! 1056 = None ∧
   bytes sc_released !! 1071 = None).
Proof. vm_compute. done. Qed.

Lemma invokeCtor_erases_previous_witness :
  @invokeCtor ex_env_marking 100 ex_block ex_bytes =
  @invokeCtor ex_env_marking 100 ex_block (<[150 := x33]> ex_bytes).
Proof.
  apply (@invokeCtor_erases_previous ex_env_marking 100 ex_block ex_bytes
           (<[150 := x33]> ex_bytes)).
  intros a Ha. rewrite lookup_insert_ne; [reflexivity|].
  intros <-. apply Ha. vm_compute. split; [discriminate | reflexivity].
Defined.

Lemma invokeCtor_zero_data_witness :
  (invokeCtor 100 ex_block ex_bytes).2 !! (data 100 ex_block + 1) = Some x00.
Proof.
  apply (invokeCtor_zero_data 100 ex_block ex_bytes 1).
  - reflexivity.
  - vm_compute. discriminate.
  - vm_compute. discriminate.
  - vm_compute. split; [discriminate | reflexivity].
Defined.

Lemma lifecycle_run_without_callbacks_witness :
  lifecycle_run 100 [Destroy; Construct; Construct; Destroy]
    (ex_block, ex_bytes) =
  (set_IsInitialized false ex_block, memset ex_bytes 132 x00 32).
Proof.
  exact (lifecycle_run_without_callbacks 100
           [Destroy; Construct; Construct; Destroy] ex_block ex_bytes
           eq_refl eq_refl).
Defined.

Lemma invokeCtor_keeps_other_block_witness :
  (invokeCtor 200 ex_block ex_bytes).2 !! (rawData 100 + 8) =
  ex_bytes !! (rawData 100 + 8).
Proof.
  apply (invokeCtor_keeps_other_block 200 100 ex_block ex_block ex_bytes 8).
  - reflexivity.
  - left. vm_compute. discriminate.
  - vm_compute. split; [discriminate | reflexivity].
Defined.
